(** * ticminimaxtoe: the game object and the minimax player

    A shallow embedding of [ticminimaxtoe.py].  The single [Game] object that
    the driver and the AI share is the state of a small state-and-exception
    monad; Python lists are lists with Python's indexing rules, marks are
    Python strings, and an empty cell is [None]. *)

From Stdlib Require Import ZArith String List Bool Lia Sorted.
From stdpp Require Import base list.
Import ListNotations.

Open Scope string_scope.
Open Scope list_scope.
Open Scope Z_scope.

(** ** Python lists *)

Module PyList.

(** Position addressed by the subscript [i] in a list of length [n]:
    [0 .. n-1] directly, [-n .. -1] from the end, anything else is an
    [IndexError] (here [None]). *)
Definition index {A} (l : list A) (i : Z) : option nat :=
  let n := Z.of_nat (length l) in
  if (0 <=? i) && (i <? n) then Some (Z.to_nat i)
  else if (- n <=? i) && (i <? 0) then Some (Z.to_nat (i + n))
  else None.

(** [l[i]] *)
Definition getitem {A} (l : list A) (i : Z) : option A :=
  match index l i with
  | Some k => l !! k
  | None => None
  end.

(** [l[i] = x] *)
Definition setitem {A} (l : list A) (i : Z) (x : A) : option (list A) :=
  match index l i with
  | Some k => Some (<[k:=x]> l)
  | None => None
  end.

(** [enumerate(l)] *)
Fixpoint enumerate_from {A} (i : Z) (l : list A) : list (Z * A) :=
  match l with
  | [] => []
  | x :: l' => (i, x) :: enumerate_from (i + 1) l'
  end.

Definition enumerate {A} (l : list A) : list (Z * A) := enumerate_from 0 l.

(** [x in l] for a list of integers *)
Definition contains (l : list Z) (x : Z) : bool := existsb (Z.eqb x) l.

(** [min(l)] and [max(l)]; [None] is the [ValueError] of an empty argument. *)
Definition min (l : list Z) : option Z :=
  match l with
  | [] => None
  | x :: l' => Some (fold_left Z.min l' x)
  end.

Definition max (l : list Z) : option Z :=
  match l with
  | [] => None
  | x :: l' => Some (fold_left Z.max l' x)
  end.

(** Bound of a slice of a list of length [n]: a negative bound counts from
    the end, and every bound is clamped to [0 .. n]. *)
Definition slice_bound (n k : Z) : Z :=
  if k <? 0 then Z.max (k + n) 0 else Z.min k n.

(** [l[i:j]] *)
Definition slice {A} (l : list A) (i j : Z) : list A :=
  let n := Z.of_nat (length l) in
  take (Z.to_nat (slice_bound n j - slice_bound n i))
       (drop (Z.to_nat (slice_bound n i)) l).

(** [range(start, stop, step)] for a positive step *)
Definition range (start stop step : Z) : list Z :=
  map (fun k => start + Z.of_nat k * step)
      (seq 0 (Z.to_nat ((stop - start + step - 1) / step))).

End PyList.

(** [randint(a, b)] returns an integer [N] with [a <= N <= b], every one with
    the same probability.  The draw is modelled by its support in ascending
    order: the call can return exactly the members of this list, each equally
    likely. *)
Definition randint (a b : Z) : list Z := seqZ a (b - a + 1).

(** ** class Game *)

(** A board cell: [None], or the string of the player who owns it. *)
Abbreviation cell_value := (option string).

Record Game := mkGame {
  board : list cell_value;
  ai_moves_count : Z;
  status : string;
  current_player : string
}.

Definition winning_combos : list (list Z) :=
  [ [0; 1; 2]; [3; 4; 5]; [6; 7; 8];
    [0; 3; 6]; [1; 4; 7]; [2; 5; 8];
    [0; 4; 8]; [2; 4; 6] ].

(** [Game()] *)
Definition new_game : Game :=
  mkGame (replicate 9 None) 0 "Running" "X".

Definition set_board (g : Game) (b : list cell_value) : Game :=
  mkGame b (ai_moves_count g) (status g) (current_player g).

Definition set_current_player (g : Game) (p : string) : Game :=
  mkGame (board g) (ai_moves_count g) (status g) p.

(** [Game.get_enemy]: "O" for "X", and "X" for any other string. *)
Definition get_enemy (player : string) : string :=
  if String.eqb player "X" then "O" else "X".

(** [Game.change_player] *)
Definition change_player (g : Game) : Game :=
  set_current_player g (get_enemy (current_player g)).

Definition is_None (v : cell_value) : bool :=
  match v with None => true | Some _ => false end.

(** [cell_value == player] for a string [player] *)
Definition value_eq (v : cell_value) (player : string) : bool :=
  match v with None => false | Some s => String.eqb s player end.

(** The empty cells of a board whose first cell has index [i]. *)
Definition avail_from (i : Z) (b : list cell_value) : list Z :=
  map fst (List.filter (fun p => is_None (snd p)) (PyList.enumerate_from i b)).

(** [Game.available_cells]: the indices of the cells that are [None], in
    board order. *)
Definition available_cells (g : Game) : list Z :=
  map fst (List.filter (fun p => is_None (snd p)) (PyList.enumerate (board g))).

(** [Game.get_own_squares] *)
Definition get_own_squares (g : Game) (player : string) : list Z :=
  map fst (List.filter (fun p => value_eq (snd p) player) (PyList.enumerate (board g))).

(** The inner loop of [get_winner]: [win] starts [True] and is cleared by
    every position of the combo that the player does not own. *)
Definition combo_win (positions combo : list Z) : bool :=
  fold_left (fun win pos => if negb (PyList.contains positions pos) then false else win)
            combo true.

(** [Game.get_winner]: the first of "X", "O" that owns a whole combo. *)
Definition get_winner (g : Game) : option string :=
  List.find (fun player => existsb (combo_win (get_own_squares g player)) winning_combos)
            ["X"; "O"].

(** [Game.is_game_over] *)
Definition is_game_over (g : Game) : bool :=
  match available_cells g with
  | [] => true
  | _ :: _ =>
      match get_winner g with
      | Some _ => true
      | None => false
      end
  end.

(** ** Calls on the shared game object *)

Inductive pyexc := IndexError | ValueError.

(** What a call on the game object ends in: a value or an exception, both
    with the state the object is left in; [OutOfFuel] only says that the
    recursion budget of the model was too small. *)
Inductive outcome (A : Type) :=
| Return (a : A) (g : Game)
| Raise (e : pyexc) (g : Game)
| OutOfFuel.
Arguments Return {A} a g.
Arguments Raise {A} e g.
Arguments OutOfFuel {A}.

Definition M (A : Type) := Game -> outcome A.

Definition ret {A} (a : A) : M A := fun g => Return a g.
Definition raise {A} (e : pyexc) : M A := fun g => Raise e g.
Definition bind {A B} (m : M A) (f : A -> M B) : M B :=
  fun g => match m g with
           | Return a g' => f a g'
           | Raise e g' => Raise e g'
           | OutOfFuel => OutOfFuel
           end.
Definition lift_option {A} (e : pyexc) (o : option A) : M A :=
  match o with Some a => ret a | None => raise e end.

Declare Scope py_scope.
Delimit Scope py_scope with py.
Notation "x <- m ;; k" := (bind m (fun x => k))
  (at level 100, m at next level, right associativity) : py_scope.
Notation "m ;;; k" := (bind m (fun _ => k))
  (at level 100, right associativity) : py_scope.
Open Scope py_scope.

(** [for x in l: acc = body(x, acc)] *)
Fixpoint for_each {A} (l : list Z) (body : Z -> A -> M A) (acc : A) : M A :=
  match l with
  | [] => ret acc
  | x :: l' => acc' <- body x acc ;; for_each l' body acc'
  end.

(** [Game.make_move]: the item assignment, then the change of player; an
    index that the list does not have raises [IndexError] before anything
    is changed.  [player] is a mark, or [None] when the search takes a move
    back. *)
Definition make_move (cell : Z) (player : cell_value) : M unit :=
  fun g => match PyList.setitem (board g) cell player with
           | Some b => Return tt (change_player (set_board g b))
           | None => Raise IndexError g
           end.

(** [Game.validate_move] *)
Definition validate_move (cell : Z) : M bool :=
  fun g => if (cell <? 0) || (cell >? 8) then Return false g
           else match PyList.getitem (board g) cell with
                | None => Raise IndexError g
                | Some v => if negb (is_None v) then Return false g else Return true g
                end.

(** ** class AI *)

(** [game.get_winner() == s] *)
Definition winner_is (w : option string) (s : string) : bool :=
  match w with Some p => String.eqb p s | None => false end.

(** One round of the search loops: play the move, evaluate, take it back. *)
Definition try_move (rec : M Z) (move : Z) (player : string) : M Z :=
  make_move move (Some player) ;;;
  move_value <- rec ;;
  make_move move None ;;;
  ret move_value.

(** [AI.__minimax].  The recursion of the source stops at the games that
    are over, not on [depth]; [fuel] bounds it here, and [minimax_total]
    shows that one unit per empty cell and one more is always enough. *)
Fixpoint minimax (fuel : nat) (depth : Z) (player : string) : M Z :=
  match fuel with
  | O => fun _ => OutOfFuel
  | S fuel' => fun game =>
      if is_game_over game then
        if winner_is (get_winner game) "X" then Return (-1) game
        else if winner_is (get_winner game) "Y" then Return 1 game
        else Return 0 game
      else if String.eqb player "O" then
        for_each (available_cells game)
          (fun move best_value =>
             move_value <- try_move (minimax fuel' (depth - 1) (get_enemy player)) move player ;;
             ret (Z.max best_value move_value))
          (-1) game
      else
        for_each (available_cells game)
          (fun move best_value =>
             move_value <- try_move (minimax fuel' (depth - 1) (get_enemy player)) move player ;;
             ret (Z.min best_value move_value))
          1 game
  end.

(** [choices is not None]: [choices] is always a list object. *)
Definition list_is_not_None (choices : list Z) : bool := true.

(** [randint(min(l), max(l))] *)
Definition draw_between (l : list Z) : M (list Z) :=
  lo <- lift_option ValueError (PyList.min l) ;;
  hi <- lift_option ValueError (PyList.max l) ;;
  ret (randint lo hi).

(** [AI.__get_best_choice]; the result is the support of the final draw. *)
Definition get_best_choice (fuel : nat) (depth : Z) (player : string) : M (list Z) :=
  fun game =>
    let neutral_value := 0 in
    (choices <- for_each (available_cells game)
       (fun move choices =>
          move_value <- try_move (minimax fuel (depth - 1) (get_enemy player)) move player ;;
          ret (if move_value >? neutral_value then [move]
               else if move_value =? neutral_value then choices ++ [move]
               else choices))
       [] ;;
     if list_is_not_None choices then draw_between choices
     else fun game' => draw_between (available_cells game') game') game.

(** [AI.__make_easy_move] *)
Definition make_easy_move : M (list Z) :=
  fun game => draw_between (available_cells game) game.

(** [AI.__make_master_move] *)
Definition make_master_move (fuel : nat) : M (list Z) :=
  fun game =>
    let turns_left := Z.of_nat (length (available_cells game)) in
    get_best_choice fuel turns_left (current_player game) game.

(** [AI(difficulty, game)]: an empty difficulty means "master". *)
Definition ai_difficulty (difficulty : string) : string :=
  if String.eqb difficulty "" then "master" else difficulty.

(** [AI.play] *)
Definition play (fuel : nat) (difficulty : string) : M (list Z) :=
  if String.eqb (ai_difficulty difficulty) "easy" then make_easy_move
  else make_master_move fuel.

(** A game with the given cells and player to move. *)
Definition board_of (l : list cell_value) (player : string) : Game :=
  mkGame l 0 "Running" player.

Definition X_ : cell_value := Some "X".
Definition O_ : cell_value := Some "O".
Definition e_ : cell_value := None.

(** ** The main loop

    [main] alternates a validated human move (player "X") and the move that
    [AI.play] returns, while the game is not over. *)

Inductive reachable (difficulty : string) : Game -> Prop :=
| reach_new : reachable difficulty new_game
| reach_human g cell g' :
    reachable difficulty g ->
    is_game_over g = false ->
    current_player g = "X" ->
    validate_move cell g = Return true g ->
    make_move cell (Some (current_player g)) g = Return tt g' ->
    reachable difficulty g'
| reach_ai g fuel cells g1 cell g' :
    reachable difficulty g ->
    is_game_over g = false ->
    current_player g <> "X" ->
    play fuel difficulty g = Return cells g1 ->
    In cell cells ->
    make_move cell (Some (current_player g1)) g1 = Return tt g' ->
    reachable difficulty g'.

(** A call that ends, by a value or by an exception, with the game object
    exactly as it found it. *)
Definition unchanged_by {A} (o : outcome A) (g : Game) : Prop :=
  match o with
  | Return _ g' => g' = g
  | Raise _ g' => g' = g
  | OutOfFuel => False
  end.

Definition is_mark (p : string) : Prop := p = "X" \/ p = "O".

(** What a balanced search leaves behind: the board and the other fields as
    they were; the player to move as it was when it was "X" or "O". *)
Definition restores (g g' : Game) : Prop :=
  board g' = board g /\
  ai_moves_count g' = ai_moves_count g /\
  status g' = status g /\
  (is_mark (current_player g) -> current_player g' = current_player g).

(** The values the search can give. *)
Definition draw_value (v : Z) : Prop := v = -1 \/ v = 0.

(** [o'] is [o] computed with at least as much fuel. *)
Definition refines {A} (o o' : outcome A) : Prop := o = OutOfFuel \/ o = o'.

(** ** The game tree

    What [minimax] computes, written without the game object: the game
    after a move on an empty cell, and the value of the tree of all moves. *)

Definition after_move (g : Game) (move : Z) (player : string) : Game :=
  change_player (set_board g (<[Z.to_nat move:=Some player]> (board g))).

Definition terminal_value (g : Game) : Z :=
  if winner_is (get_winner g) "X" then -1
  else if winner_is (get_winner g) "Y" then 1
  else 0.

Fixpoint tree_value (fuel : nat) (g : Game) (player : string) : Z :=
  match fuel with
  | O => 0
  | S fuel' =>
      if is_game_over g then terminal_value g
      else if String.eqb player "O" then
        fold_left
          (fun best move =>
             Z.max best (tree_value fuel' (after_move g move player) (get_enemy player)))
          (available_cells g) (-1)
      else
        fold_left
          (fun best move =>
             Z.min best (tree_value fuel' (after_move g move player) (get_enemy player)))
          (available_cells g) 1
  end.

(** [any] and [all] over the moves, stopping at the first answer. *)
Fixpoint any_move (f : Z -> bool) (moves : list Z) : bool :=
  match moves with
  | [] => false
  | m :: moves' => if f m then true else any_move f moves'
  end.

Fixpoint every_move (f : Z -> bool) (moves : list Z) : bool :=
  match moves with
  | [] => true
  | m :: moves' => if f m then every_move f moves' else false
  end.

(** A search that stops early: [true] only if the tree has value 0.  For "O"
    one move of value 0 is enough, for the other player every move must have
    value 0. *)
Fixpoint no_loss (fuel : nat) (g : Game) (player : string) : bool :=
  match fuel with
  | O => false
  | S fuel' =>
      if is_game_over g then negb (winner_is (get_winner g) "X")
      else if String.eqb player "O" then
        any_move (fun move => no_loss fuel' (after_move g move player) (get_enemy player))
                 (available_cells g)
      else
        every_move (fun move => no_loss fuel' (after_move g move player) (get_enemy player))
                   (available_cells g)
  end.

(** The candidates that the scan of [get_best_choice] keeps, from the
    values of the game tree. *)
Definition candidates (fuel : nat) (g : Game) (player : string) : list Z :=
  fold_left
    (fun choices move =>
       let v := tree_value fuel (after_move g move player) (get_enemy player) in
       if v >? 0 then [move] else if v =? 0 then choices ++ [move] else choices)
    (available_cells g) [].

(** ** Notions for the further properties *)

(** [Game.print_board]: the rows that are printed, one per line, after the
    blank lines. *)
Definition print_board (g : Game) : list (list cell_value) :=
  map (fun i => PyList.slice (board g) i (i + 3))
      (PyList.range 0 (Z.of_nat (length (board g))) 3).

(** The cell values of a game in play. *)
Definition cell_ok (v : cell_value) : Prop :=
  v = None \/ v = Some "X" \/ v = Some "O".

(** The player owns every cell of the combo. *)
Definition holds_combo (g : Game) (player : string) (combo : list Z) : Prop :=
  forall pos, In pos combo -> 0 <= pos /\ board g !! Z.to_nat pos = Some (Some player).

Definition has_line (g : Game) (player : string) : Prop :=
  exists combo, In combo winning_combos /\ holds_combo g player combo.

(** [c] lies between two members of [l]. *)
Definition between (l : list Z) (c : Z) : Prop :=
  exists a b, In a l /\ In b l /\ a <= c <= b.

(** What the main loop keeps true of the game object. *)
Definition game_invariant (g : Game) : Prop :=
  length (board g) = 9%nat
  /\ Forall cell_ok (board g)
  /\ is_mark (current_player g)
  /\ status g = "Running"
  /\ ai_moves_count g = 0.

(** ** Positions used below *)

Definition x_on_0 : Game := board_of [X_; e_; e_; e_; e_; e_; e_; e_; e_] "O".
Definition x_on_1 : Game := board_of [e_; X_; e_; e_; e_; e_; e_; e_; e_] "O".
Definition x_0_o_4 : Game := board_of [X_; e_; e_; e_; O_; e_; e_; e_; e_] "X".
Definition x_0_8_o_4 : Game := board_of [X_; e_; e_; e_; O_; e_; e_; e_; X_] "O".
Definition x_0_8_o_2_4 : Game := board_of [X_; e_; O_; e_; O_; e_; e_; e_; X_] "X".
Definition x_0_6_8_o_2_4 : Game := board_of [X_; e_; O_; e_; O_; e_; X_; e_; X_] "O".
Definition x_row_won : Game := board_of [X_; X_; X_; O_; O_; e_; e_; e_; e_] "O".
Definition full_draw : Game := board_of [X_; O_; X_; X_; O_; O_; O_; X_; X_] "O".

(** * Properties *)

(** ** Python lists and the cell queries *)

Section ListFacts.

Lemma available_cells_avail_from g : available_cells g = avail_from 0 (board g).
Proof. reflexivity. Qed.

Lemma in_avail_from b : forall i m,
  In m (avail_from i b) ->
  i <= m /\ b !! Z.to_nat (m - i) = Some None.
Proof.
  induction b as [|v b IH]; intros i m; unfold avail_from; simpl; [tauto|].
  destruct v as [s|]; simpl.
  - intros Hin. destruct (IH (i + 1) m Hin) as [Hle Hlk]. split; [lia|].
    replace (Z.to_nat (m - i)) with (S (Z.to_nat (m - (i + 1)))) by lia.
    exact Hlk.
  - intros [<-|Hin].
    + split; [lia|]. now replace (i - i) with 0 by lia.
    + destruct (IH (i + 1) m Hin) as [Hle Hlk]. split; [lia|].
      replace (Z.to_nat (m - i)) with (S (Z.to_nat (m - (i + 1)))) by lia.
      exact Hlk.
Qed.

Lemma in_available_cells g m :
  In m (available_cells g) -> 0 <= m /\ board g !! Z.to_nat m = Some None.
Proof.
  rewrite available_cells_avail_from. intros Hin.
  apply in_avail_from in Hin. now rewrite Z.sub_0_r in Hin.
Qed.

Lemma avail_from_insert_length b : forall i (k : nat) s,
  b !! k = Some None ->
  S (length (avail_from i (<[k:=Some s]> b))) = length (avail_from i b).
Proof.
  induction b as [|v b IH]; intros i k s Hlk; [discriminate|].
  destruct k as [|k]; simpl in Hlk.
  - injection Hlk as ->. reflexivity.
  - specialize (IH (i + 1) k s Hlk). unfold avail_from in *. simpl.
    destruct v; simpl; simpl in IH; now rewrite <- IH.
Qed.

Lemma index_in_range {A} (l : list A) (m : Z) (x : A) :
  0 <= m -> l !! Z.to_nat m = Some x -> PyList.index l m = Some (Z.to_nat m).
Proof.
  intros Hm Hlk. apply lookup_lt_Some in Hlk. unfold PyList.index.
  replace (0 <=? m) with true by (symmetry; apply Z.leb_le; lia).
  replace (m <? Z.of_nat (length l)) with true by (symmetry; apply Z.ltb_lt; lia).
  reflexivity.
Qed.

Lemma insert_take_back (b : list cell_value) (k : nat) s :
  b !! k = Some None -> <[k:=None]> (<[k:=Some s]> b) = b.
Proof. intros Hlk. rewrite list_insert_insert_eq. now apply list_insert_id. Qed.

End ListFacts.

(** ** The monad *)

Section Fuel.

Lemma refines_refl {A} (o : outcome A) : refines o o.
Proof. now right. Qed.

Lemma refines_trans {A} (o1 o2 o3 : outcome A) :
  refines o1 o2 -> refines o2 o3 -> refines o1 o3.
Proof. intros [->| ->] H; [now left | exact H]. Qed.

Lemma refines_done {A} (o o' : outcome A) :
  refines o o' -> o <> OutOfFuel -> o' = o.
Proof. intros [->| ->] H; congruence. Qed.

Lemma bind_refines {A B} (m m' : M A) (f f' : A -> M B) g :
  refines (m g) (m' g) ->
  (forall a g1, refines (f a g1) (f' a g1)) ->
  refines (bind m f g) (bind m' f' g).
Proof.
  unfold bind. intros [Hm|Hm] Hf.
  - rewrite Hm. now left.
  - rewrite <- Hm. destruct (m g); [apply Hf | apply refines_refl | apply refines_refl].
Qed.

Lemma for_each_refines {A} (body body' : Z -> A -> M A) :
  (forall x acc g, refines (body x acc g) (body' x acc g)) ->
  forall l acc g, refines (for_each l body acc g) (for_each l body' acc g).
Proof.
  intros Hbody l. induction l as [|x l IH]; intros acc g; simpl.
  - apply refines_refl.
  - apply bind_refines; [apply Hbody | intros; apply IH].
Qed.

Lemma try_move_refines (rec rec' : M Z) move player :
  (forall g, refines (rec g) (rec' g)) ->
  forall g, refines (try_move rec move player g) (try_move rec' move player g).
Proof.
  intros Hrec g. unfold try_move.
  apply bind_refines; [apply refines_refl|]. intros _ g1.
  apply bind_refines; [apply Hrec|]. intros; apply refines_refl.
Qed.

Lemma minimax_S fuel : forall depth player g,
  refines (minimax fuel depth player g) (minimax (S fuel) depth player g).
Proof.
  induction fuel as [|fuel IH]; intros depth player g; [now left|].
  change (minimax (S (S fuel)) depth player g) with
    (if is_game_over g then
       if winner_is (get_winner g) "X" then Return (-1) g
       else if winner_is (get_winner g) "Y" then Return 1 g
       else Return 0 g
     else if String.eqb player "O" then
       for_each (available_cells g)
         (fun move best_value =>
            move_value <- try_move (minimax (S fuel) (depth - 1) (get_enemy player)) move player ;;
            ret (Z.max best_value move_value))
         (-1) g
     else
       for_each (available_cells g)
         (fun move best_value =>
            move_value <- try_move (minimax (S fuel) (depth - 1) (get_enemy player)) move player ;;
            ret (Z.min best_value move_value))
         1 g).
  simpl minimax.
  destruct (is_game_over g); [apply refines_refl|].
  destruct (String.eqb player "O");
    apply for_each_refines; intros x acc g1;
    (apply bind_refines; [apply try_move_refines; intros; apply IH | intros; apply refines_refl]).
Qed.

Lemma minimax_more_fuel fuel k depth player g :
  refines (minimax fuel depth player g) (minimax (fuel + k) depth player g).
Proof.
  induction k as [|k IH].
  - rewrite Nat.add_0_r. apply refines_refl.
  - rewrite Nat.add_succ_r. eapply refines_trans; [exact IH | apply minimax_S].
Qed.

Lemma get_best_choice_more_fuel fuel k depth player g :
  refines (get_best_choice fuel depth player g)
          (get_best_choice (fuel + k) depth player g).
Proof.
  unfold get_best_choice.
  apply bind_refines; [|intros; apply refines_refl].
  apply for_each_refines; intros x acc g1.
  apply bind_refines; [|intros; apply refines_refl].
  apply try_move_refines; intros; apply minimax_more_fuel.
Qed.

Lemma play_more_fuel fuel k difficulty g :
  refines (play fuel difficulty g) (play (fuel + k) difficulty g).
Proof.
  unfold play. destruct (String.eqb (ai_difficulty difficulty) "easy").
  - apply refines_refl.
  - apply get_best_choice_more_fuel.
Qed.

End Fuel.

(** ** The game object *)

Section GameFacts.

Lemma get_enemy_is_mark p : is_mark (get_enemy p).
Proof. unfold get_enemy, is_mark. destruct (String.eqb p "X"); auto. Qed.

Lemma get_enemy_involutive p : is_mark p -> get_enemy (get_enemy p) = p.
Proof. intros [-> | ->]; reflexivity. Qed.

Lemma restores_refl g : restores g g.
Proof. unfold restores; auto. Qed.

Lemma restores_trans g1 g2 g3 : restores g1 g2 -> restores g2 g3 -> restores g1 g3.
Proof.
  intros (Hb & Ha & Hs & Hp) (Hb' & Ha' & Hs' & Hp'). unfold restores.
  repeat split; try congruence.
  intros Hm. rewrite Hp' by (rewrite Hp; assumption). now apply Hp.
Qed.

Lemma restores_eq g g' : is_mark (current_player g) -> restores g g' -> g' = g.
Proof.
  intros Hm (Hb & Ha & Hs & Hp). specialize (Hp Hm).
  destruct g, g'; simpl in *. congruence.
Qed.

Lemma make_move_empty_cell m v g :
  In m (available_cells g) ->
  make_move m v g =
  Return tt (change_player (set_board g (<[Z.to_nat m:=v]> (board g)))).
Proof.
  intros Hin. apply in_available_cells in Hin as [Hm Hlk].
  unfold make_move, PyList.setitem. now rewrite (index_in_range _ _ _ Hm Hlk).
Qed.

Lemma reachable_is_mark difficulty g :
  reachable difficulty g -> is_mark (current_player g).
Proof.
  assert (Hmv : forall c v g0 g1, make_move c v g0 = Return tt g1 ->
                                  is_mark (current_player g1)).
  { intros c v g0 g1. unfold make_move.
    destruct (PyList.setitem (board g0) c v); [|discriminate].
    intros [= <-]. apply get_enemy_is_mark. }
  induction 1; [now left | eauto | eauto].
Qed.

End GameFacts.

(** ** The search *)

Section Search.

(** One evaluated move: the cell is taken, the rest of the game is searched,
    the cell is given back. *)
Lemma try_move_spec (P : Z -> Prop) (rec : M Z) m player g :
  0 <= m ->
  board g !! Z.to_nat m = Some None ->
  (forall g1, board g1 = <[Z.to_nat m:=Some player]> (board g) ->
              exists v g2, rec g1 = Return v g2 /\ restores g1 g2 /\ P v) ->
  exists v g', try_move rec m player g = Return v g' /\ restores g g' /\ P v.
Proof.
  intros Hm Hlk Hrec.
  pose proof (index_in_range _ _ _ Hm Hlk) as Hidx.
  set (g1 := change_player (set_board g (<[Z.to_nat m:=Some player]> (board g)))).
  destruct (Hrec g1 eq_refl) as (v & g2 & Hr & (Hb & Ha & Hs & Hp) & HP).
  assert (Hidx2 : PyList.index (board g2) m = Some (Z.to_nat m)).
  { apply index_in_range with (x := Some player); [exact Hm|].
    rewrite Hb. simpl. apply list_lookup_insert_eq. now apply lookup_lt_Some in Hlk. }
  exists v, (change_player (set_board g2 (<[Z.to_nat m:=None]> (board g2)))).
  split; [|split; [|exact HP]].
  - unfold try_move, bind, make_move, PyList.setitem.
    rewrite Hidx. fold g1. rewrite Hr, Hidx2. reflexivity.
  - unfold restores. simpl. rewrite Hb, Ha, Hs. simpl.
    rewrite insert_take_back by exact Hlk.
    repeat split. intros Hmark.
    rewrite Hp by apply get_enemy_is_mark. simpl.
    now apply get_enemy_involutive.
Qed.

(** A loop of evaluated moves over empty cells of the board: it ends, leaves
    the game as it was, and keeps any invariant of the accumulator. *)
Lemma for_each_try_move {A} (P : Z -> Prop) (I : A -> Prop)
      (step : Z -> A -> Z -> A) (rec : M Z) player (b : list cell_value) moves :
  (forall m, In m moves -> 0 <= m /\ b !! Z.to_nat m = Some None) ->
  (forall m g1, In m moves -> board g1 = <[Z.to_nat m:=Some player]> b ->
                exists v g2, rec g1 = Return v g2 /\ restores g1 g2 /\ P v) ->
  (forall m acc v, In m moves -> I acc -> P v -> I (step m acc v)) ->
  forall acc g, board g = b -> I acc ->
  exists acc' g',
    for_each moves
      (fun move acc0 => v <- try_move rec move player ;; ret (step move acc0 v))
      acc g = Return acc' g'
    /\ restores g g' /\ I acc'.
Proof.
  induction moves as [|m moves IH]; intros Hmoves Hrec Hstep acc g Hb HI.
  - exists acc, g. simpl. repeat split; auto; apply restores_refl.
  - destruct (Hmoves m (or_introl eq_refl)) as [Hm Hlk].
    destruct (try_move_spec P rec m player g Hm) as (v & g1 & Htry & Hres & HP).
    { now rewrite Hb. }
    { intros g0 Hg0. apply (Hrec m); [now left | now rewrite <- Hb]. }
    destruct (IH (fun x Hx => Hmoves x (or_intror Hx))
                 (fun x g0 Hx => Hrec x g0 (or_intror Hx))
                 (fun x a w Hx => Hstep x a w (or_intror Hx))
                 (step m acc v) g1) as (acc' & g' & Hloop & Hres' & HI').
    { destruct Hres as [-> _]. exact Hb. }
    { apply Hstep; auto. now left. }
    exists acc', g'. split; [|split; [|exact HI']].
    + simpl. unfold bind at 1. unfold bind at 1. rewrite Htry. unfold ret at 1. exact Hloop.
    + eapply restores_trans; eassumption.
Qed.

Lemma get_winner_cases g :
  get_winner g = None \/ get_winner g = Some "X" \/ get_winner g = Some "O".
Proof.
  unfold get_winner, List.find.
  destruct (existsb (combo_win (get_own_squares g "X")) winning_combos); [auto|].
  destruct (existsb (combo_win (get_own_squares g "O")) winning_combos); auto.
Qed.

Lemma not_over_has_move g :
  is_game_over g = false -> exists m moves, available_cells g = m :: moves.
Proof.
  unfold is_game_over. destruct (available_cells g) as [|m moves]; [discriminate|eauto].
Qed.

(** With one unit of fuel per empty cell and one more, [minimax] returns: a
    value of -1 or 0, and the game as it found it. *)
Lemma minimax_total fuel : forall g depth player,
  (length (available_cells g) < fuel)%nat ->
  exists v g', minimax fuel depth player g = Return v g' /\ restores g g' /\ draw_value v.
Proof.
  induction fuel as [|fuel IH]; intros g depth player Hfuel; [lia|].
  simpl minimax.
  destruct (is_game_over g) eqn:Hover.
  { destruct (get_winner_cases g) as [-> | [-> | ->]]; simpl;
      eexists _, g; (split; [reflexivity|]); split;
      try apply restores_refl; unfold draw_value; auto. }
  destruct (not_over_has_move g Hover) as (m0 & moves & Hav).
  assert (Hcells : forall m, In m (available_cells g) ->
                             0 <= m /\ board g !! Z.to_nat m = Some None)
    by (intros; now apply in_available_cells).
  assert (Hrec : forall m g1, In m (available_cells g) ->
             board g1 = <[Z.to_nat m:=Some player]> (board g) ->
             exists v g2, minimax fuel (depth - 1) (get_enemy player) g1 = Return v g2
                          /\ restores g1 g2 /\ draw_value v).
  { intros m g1 Hin Hb. apply IH.
    rewrite available_cells_avail_from, Hb.
    destruct (Hcells m Hin) as [_ Hlk].
    pose proof (avail_from_insert_length (board g) 0 (Z.to_nat m) player Hlk) as Hlen.
    rewrite available_cells_avail_from in Hfuel. lia. }
  destruct (String.eqb player "O").
  - apply (for_each_try_move draw_value draw_value
             (fun _ best v => Z.max best v) _ player (board g));
      auto; try (now left).
    intros _ acc v _ [-> | ->] [-> | ->]; unfold draw_value; simpl; auto.
  - rewrite Hav in *.
    destruct (try_move_spec draw_value
                (minimax fuel (depth - 1) (get_enemy player)) m0 player g)
      as (v & g1 & Htry & Hres & Hv).
    { apply (Hcells m0); now left. }
    { apply (Hcells m0); now left. }
    { intros g1 Hg1. apply (Hrec m0); [now left | exact Hg1]. }
    destruct (for_each_try_move draw_value draw_value
                (fun _ best v => Z.min best v)
                (minimax fuel (depth - 1) (get_enemy player)) player (board g) moves
                (fun x Hx => Hcells x (or_intror Hx))
                (fun x g0 Hx => Hrec x g0 (or_intror Hx)))
      with (acc := Z.min 1 v) (g := g1) as (acc' & g' & Hloop & Hres' & Hacc).
    { intros _ acc w _ [-> | ->] [-> | ->]; unfold draw_value; simpl; auto. }
    { now destruct Hres. }
    { destruct Hv as [-> | ->]; unfold draw_value; simpl; auto. }
    exists acc', g'. split; [|split; [eapply restores_trans; eassumption | exact Hacc]].
    simpl. unfold bind at 1. unfold bind at 1. rewrite Htry. unfold ret at 1. exact Hloop.
Qed.

End Search.

(** ** The search computes the value of the game tree *)

Section TreeValue.

Lemma make_move_undo g m player :
  is_mark (current_player g) ->
  In m (available_cells g) ->
  make_move m None (after_move g m player) = Return tt g.
Proof.
  intros Hmark Hin. apply in_available_cells in Hin as [Hm Hlk].
  unfold make_move, PyList.setitem, after_move. simpl board.
  rewrite (index_in_range _ m (Some player) Hm)
    by (apply list_lookup_insert_eq; now apply lookup_lt_Some in Hlk).
  rewrite insert_take_back by exact Hlk.
  unfold change_player, set_current_player, set_board. simpl.
  rewrite get_enemy_involutive by exact Hmark. now destruct g.
Qed.

Lemma after_move_is_mark g m player : is_mark (current_player (after_move g m player)).
Proof. apply get_enemy_is_mark. Qed.

Lemma after_move_fewer g m player :
  In m (available_cells g) ->
  S (length (available_cells (after_move g m player))) = length (available_cells g).
Proof.
  intros Hin. apply in_available_cells in Hin as [_ Hlk].
  rewrite !available_cells_avail_from. now apply avail_from_insert_length.
Qed.

Lemma try_move_exact (rec : M Z) m player g v :
  is_mark (current_player g) ->
  In m (available_cells g) ->
  rec (after_move g m player) = Return v (after_move g m player) ->
  try_move rec m player g = Return v g.
Proof.
  intros Hmark Hin Hrec. unfold try_move, bind.
  rewrite (make_move_empty_cell _ _ _ Hin). fold (after_move g m player).
  rewrite Hrec, make_move_undo by assumption. reflexivity.
Qed.

Lemma for_each_try_move_exact {A} (step : Z -> A -> Z -> A) (rec : M Z)
      (vals : Z -> Z) player g moves :
  is_mark (current_player g) ->
  (forall m, In m moves -> In m (available_cells g)) ->
  (forall m, In m moves ->
             rec (after_move g m player) = Return (vals m) (after_move g m player)) ->
  forall acc,
    for_each moves
      (fun move acc0 => v <- try_move rec move player ;; ret (step move acc0 v))
      acc g
    = Return (fold_left (fun a m => step m a (vals m)) moves acc) g.
Proof.
  intros Hmark. induction moves as [|m moves IH]; intros Hin Hrec acc; [reflexivity|].
  simpl. unfold bind at 1. unfold bind at 1.
  rewrite (try_move_exact rec m player g (vals m)); auto; try (now left).
  - unfold ret at 1. apply IH; intros; [apply Hin | apply Hrec]; now right.
  - apply Hin; now left.
  - apply Hrec; now left.
Qed.

(** With enough fuel [minimax] returns the value of the game tree and leaves
    the game, whose player to move is "X" or "O", as it was. *)
Lemma minimax_tree_value fuel : forall g depth player,
  is_mark (current_player g) ->
  (length (available_cells g) < fuel)%nat ->
  minimax fuel depth player g = Return (tree_value fuel g player) g.
Proof.
  induction fuel as [|fuel IH]; intros g depth player Hmark Hfuel; [lia|].
  simpl. unfold terminal_value.
  destruct (is_game_over g).
  { destruct (winner_is (get_winner g) "X"); [reflexivity|].
    destruct (winner_is (get_winner g) "Y"); reflexivity. }
  assert (Hrec : forall m, In m (available_cells g) ->
            minimax fuel (depth - 1) (get_enemy player) (after_move g m player)
            = Return (tree_value fuel (after_move g m player) (get_enemy player))
                     (after_move g m player)).
  { intros m Hin. apply IH; [apply after_move_is_mark|].
    pose proof (after_move_fewer g m player Hin). lia. }
  destruct (String.eqb player "O").
  - apply (for_each_try_move_exact (fun _ best v => Z.max best v)
             (minimax fuel (depth - 1) (get_enemy player))
             (fun m => tree_value fuel (after_move g m player) (get_enemy player)));
      auto.
  - apply (for_each_try_move_exact (fun _ best v => Z.min best v)
             (minimax fuel (depth - 1) (get_enemy player))
             (fun m => tree_value fuel (after_move g m player) (get_enemy player)));
      auto.
Qed.

Lemma fold_max_range (f : Z -> Z) l : forall a,
  (forall m, In m l -> draw_value (f m)) -> draw_value a ->
  draw_value (fold_left (fun best m => Z.max best (f m)) l a).
Proof.
  induction l as [|x l IH]; intros a Hf Ha; [exact Ha|]. simpl. apply IH.
  - intros m Hm. apply Hf. now right.
  - destruct Ha as [-> | ->], (Hf x (or_introl eq_refl)) as [-> | ->];
      unfold draw_value; simpl; auto.
Qed.

Lemma fold_min_range (f : Z -> Z) l : forall a,
  (forall m, In m l -> draw_value (f m)) -> draw_value a ->
  draw_value (fold_left (fun best m => Z.min best (f m)) l a).
Proof.
  induction l as [|x l IH]; intros a Hf Ha; [exact Ha|]. simpl. apply IH.
  - intros m Hm. apply Hf. now right.
  - destruct Ha as [-> | ->], (Hf x (or_introl eq_refl)) as [-> | ->];
      unfold draw_value; simpl; auto.
Qed.

Lemma terminal_value_range g : draw_value (terminal_value g).
Proof.
  unfold terminal_value, draw_value.
  destruct (get_winner_cases g) as [-> | [-> | ->]]; simpl; auto.
Qed.

Lemma tree_value_range fuel : forall g player, draw_value (tree_value fuel g player).
Proof.
  induction fuel as [|fuel IH]; intros g player; [now right|]. simpl.
  destruct (is_game_over g) eqn:Hover; [apply terminal_value_range|].
  destruct (String.eqb player "O").
  - apply fold_max_range; [intros; apply IH | now left].
  - destruct (not_over_has_move g Hover) as (m & moves & ->). simpl.
    apply fold_min_range; [intros; apply IH|].
    destruct (IH (after_move g m player) (get_enemy player)) as [-> | ->];
      unfold draw_value; simpl; auto.
Qed.

Lemma fold_max_zero (f : Z -> Z) l : forall a,
  (forall m, In m l -> draw_value (f m)) -> draw_value a ->
  a = 0 \/ (exists m, In m l /\ f m = 0) ->
  fold_left (fun best m => Z.max best (f m)) l a = 0.
Proof.
  induction l as [|x l IH]; intros a Hf Ha Hzero; simpl.
  - destruct Hzero as [H | (m & [] & _)]. exact H.
  - apply IH.
    + intros m Hm. apply Hf. now right.
    + destruct Ha as [-> | ->], (Hf x (or_introl eq_refl)) as [-> | ->];
        unfold draw_value; simpl; auto.
    + destruct Hzero as [-> | (m & [<- | Hm] & Hfm)].
      * left. destruct (Hf x (or_introl eq_refl)) as [-> | ->]; reflexivity.
      * left. rewrite Hfm. destruct Ha as [-> | ->]; reflexivity.
      * right. eauto.
Qed.

Lemma fold_min_zero (f : Z -> Z) l : forall a,
  (forall m, In m l -> f m = 0) ->
  a = 0 \/ (a = 1 /\ l <> []) ->
  fold_left (fun best m => Z.min best (f m)) l a = 0.
Proof.
  induction l as [|x l IH]; intros a Hf Ha; simpl.
  - destruct Ha as [H | [_ H]]; [exact H | congruence].
  - apply IH; [intros m Hm; apply Hf; now right|].
    left. rewrite (Hf x (or_introl eq_refl)). destruct Ha as [-> | [-> _]]; reflexivity.
Qed.

Lemma any_move_true f moves :
  any_move f moves = true -> exists m, In m moves /\ f m = true.
Proof.
  induction moves as [|m moves IH]; simpl; [discriminate|].
  destruct (f m) eqn:Hm; [eauto|].
  intros H. destruct (IH H) as (m' & Hin & Hm'). eauto.
Qed.

Lemma every_move_true f moves :
  every_move f moves = true -> forall m, In m moves -> f m = true.
Proof.
  induction moves as [|m moves IH]; simpl; [tauto|].
  destruct (f m) eqn:Hm; [|discriminate].
  intros H m' [<- | Hin]; auto.
Qed.

(** The early-stopping search is right when it says [true]. *)
Lemma no_loss_sound fuel : forall g player,
  no_loss fuel g player = true -> tree_value fuel g player = 0.
Proof.
  induction fuel as [|fuel IH]; intros g player; [discriminate|]. simpl.
  destruct (is_game_over g) eqn:Hover.
  { unfold terminal_value.
    destruct (get_winner_cases g) as [-> | [-> | ->]]; simpl; auto; discriminate. }
  destruct (String.eqb player "O").
  - intros H. apply any_move_true in H as (m & Hin & Hm).
    apply (fold_max_zero
             (fun m => tree_value fuel (after_move g m player) (get_enemy player))).
    + intros; apply tree_value_range.
    + now left.
    + right. exists m. split; [exact Hin | now apply IH].
  - intros H. pose proof (every_move_true _ _ H) as Hall.
    apply (fold_min_zero
             (fun m => tree_value fuel (after_move g m player) (get_enemy player))).
    + intros m Hin. apply IH, Hall, Hin.
    + right. split; [reflexivity|].
      destruct (not_over_has_move g Hover) as (m & moves & ->). discriminate.
Qed.

End TreeValue.

Section BestChoice.

Lemma draw_between_state l g :
  match l with
  | [] => draw_between l g = Raise ValueError g
  | _ :: _ => exists lo hi, draw_between l g = Return (randint lo hi) g
  end.
Proof. destruct l; [reflexivity|]. unfold draw_between. simpl. eauto. Qed.

Lemma draw_between_unchanged l g : unchanged_by (draw_between l g) g.
Proof.
  pose proof (draw_between_state l g) as H. destruct l.
  - now rewrite H.
  - destruct H as (lo & hi & ->). reflexivity.
Qed.

(** The scan of [get_best_choice] ends and leaves the game as it was; what
    is left to do is the draw over the candidates, all of them empty cells. *)
Lemma get_best_choice_scan fuel depth player g :
  (length (available_cells g) <= fuel)%nat ->
  exists choices g',
    get_best_choice fuel depth player g = draw_between choices g'
    /\ restores g g'
    /\ (forall c, In c choices -> In c (available_cells g)).
Proof.
  intros Hfuel.
  destruct (for_each_try_move draw_value
              (fun choices => forall c, In c choices -> In c (available_cells g))
              (fun move choices v =>
                 if v >? 0 then [move]
                 else if v =? 0 then choices ++ [move] else choices)
              (minimax fuel (depth - 1) (get_enemy player)) player
              (board g) (available_cells g))
    with (acc := @nil Z) (g := g) as (choices & g' & Hloop & Hres & Hsub).
  - intros; now apply in_available_cells.
  - intros m g1 Hin Hb. apply minimax_total.
    apply in_available_cells in Hin as [_ Hlk].
    pose proof (avail_from_insert_length (board g) 0 (Z.to_nat m) player Hlk) as Hlen.
    rewrite !available_cells_avail_from, Hb in *. lia.
  - intros m acc v Hin Hacc _ c.
    destruct (v >? 0); [intros [<-|[]]; exact Hin|].
    destruct (v =? 0); [|apply Hacc].
    rewrite in_app_iff. intros [Hc|[<-|[]]]; auto.
  - reflexivity.
  - intros c [].
  - exists choices, g'. split; [|split; assumption].
    unfold get_best_choice. cbv zeta. unfold bind at 1. rewrite Hloop. reflexivity.
Qed.

(** The scan keeps the candidates computed from the values of the tree. *)
Lemma get_best_choice_candidates fuel depth player g :
  is_mark (current_player g) ->
  (length (available_cells g) <= fuel)%nat ->
  get_best_choice fuel depth player g = draw_between (candidates fuel g player) g.
Proof.
  intros Hmark Hfuel. unfold get_best_choice. cbv zeta. unfold bind at 1.
  rewrite (for_each_try_move_exact
             (fun move choices v =>
                if v >? 0 then [move] else if v =? 0 then choices ++ [move] else choices)
             (minimax fuel (depth - 1) (get_enemy player))
             (fun m => tree_value fuel (after_move g m player) (get_enemy player)));
    auto.
  intros m Hin. apply minimax_tree_value; [apply after_move_is_mark|].
  pose proof (after_move_fewer g m player Hin). lia.
Qed.

(** When every move has a value below 0 no candidate is kept, and the draw
    raises [ValueError]: an empty list is not [None]. *)
Lemma no_candidate_raises fuel depth player g :
  is_mark (current_player g) ->
  (length (available_cells g) <= fuel)%nat ->
  (forall m, In m (available_cells g) ->
             tree_value fuel (after_move g m player) (get_enemy player) < 0) ->
  get_best_choice fuel depth player g = Raise ValueError g.
Proof.
  intros Hmark Hfuel Hneg. rewrite get_best_choice_candidates by assumption.
  unfold candidates.
  assert (Hnil : forall l, (forall m, In m l -> In m (available_cells g)) ->
            fold_left
              (fun choices move =>
                 let v := tree_value fuel (after_move g move player) (get_enemy player) in
                 if v >? 0 then [move] else if v =? 0 then choices ++ [move] else choices)
              l [] = []).
  { induction l as [|m l IH]; intros Hsub; [reflexivity|]. simpl.
    pose proof (Hneg m (Hsub m (or_introl eq_refl))) as Hm.
    destruct (Z.gtb_spec (tree_value fuel (after_move g m player) (get_enemy player)) 0);
      [lia|].
    destruct (Z.eqb_spec (tree_value fuel (after_move g m player) (get_enemy player)) 0);
      [lia|].
    apply IH. intros x Hx. apply Hsub. now right. }
  rewrite Hnil by auto. reflexivity.
Qed.

End BestChoice.

(** * The claims *)

(** ** Moves and their validation *)

(** C1, as the code has it: on a board of nine cells [validate_move] answers
    [False] exactly for a cell index outside 0..8 or an occupied cell, and
    never touches the game; a move that it accepts is then carried out by
    [make_move], which puts the mark in that cell, leaves the other cells
    alone and passes the turn. *)
Theorem validate_move_guards_make_move g cell player :
  length (board g) = 9%nat ->
  exists ok,
    validate_move cell g = Return ok g
    /\ (ok = false <->
        cell < 0 \/ cell > 8 \/ exists s, PyList.getitem (board g) cell = Some (Some s))
    /\ (ok = true ->
        make_move cell player g =
        Return tt (mkGame (<[Z.to_nat cell:=player]> (board g)) (ai_moves_count g)
                          (status g) (get_enemy (current_player g)))).
Proof.
  intros Hlen. unfold validate_move.
  destruct (cell <? 0) eqn:Hlo; simpl.
  { exists false. apply Z.ltb_lt in Hlo. repeat split; auto; discriminate. }
  destruct (cell >? 8) eqn:Hhi; simpl.
  { exists false. apply Z.gtb_lt in Hhi. repeat split; auto; try discriminate. right; left; lia. }
  apply Z.ltb_ge in Hlo. rewrite Z.gtb_ltb in Hhi. apply Z.ltb_ge in Hhi.
  assert (Hidx : PyList.index (board g) cell = Some (Z.to_nat cell)).
  { unfold PyList.index. rewrite Hlen.
    replace (0 <=? cell) with true by (symmetry; apply Z.leb_le; lia).
    replace (cell <? Z.of_nat 9) with true by (symmetry; apply Z.ltb_lt; lia).
    reflexivity. }
  unfold PyList.getitem, make_move, PyList.setitem. rewrite Hidx.
  destruct (lookup_lt_is_Some_2 (board g) (Z.to_nat cell)) as [v Hv]; [rewrite Hlen; lia|].
  rewrite Hv. destruct v as [s|]; simpl.
  - exists false. repeat split; eauto; discriminate.
  - exists true. repeat split; try discriminate; auto.
    intros [?|[?|[s Hs]]]; [lia | lia | discriminate].
Qed.

Lemma validate_move_guards_make_move_witness :
  exists ok,
    validate_move 4 new_game = Return ok new_game
    /\ (ok = false <->
        4 < 0 \/ 4 > 8 \/ exists s, PyList.getitem (board new_game) 4 = Some (Some s))
    /\ (ok = true ->
        make_move 4 (Some "X") new_game =
        Return tt (mkGame (<[Z.to_nat 4:=Some "X"]> (board new_game))
                          (ai_moves_count new_game)
                          (status new_game) (get_enemy (current_player new_game)))).
Proof. apply (validate_move_guards_make_move new_game 4 (Some "X")). reflexivity. Defined.

(** C1 fails as stated: [make_move] checks nothing.  On an occupied cell it
    overwrites the mark and passes the turn, and with cell -1 it writes the
    last cell of the board. *)
Lemma make_move_does_not_validate :
  PyList.getitem (board x_on_0) 0 = Some (Some "X")
  /\ make_move 0 (Some "O") x_on_0 =
     Return tt (board_of [O_; e_; e_; e_; e_; e_; e_; e_; e_] "X")
  /\ make_move (-1) (Some "O") x_on_0 =
     Return tt (board_of [X_; e_; e_; e_; e_; e_; e_; e_; O_] "X").
Proof. repeat split. Qed.

(** C5: in a reachable game, a move on an empty cell followed by
    [make_move] of [None] on the same cell gives back the game it started
    from, board and player to move. *)
Theorem make_move_then_undo difficulty g cell mark :
  reachable difficulty g ->
  In cell (available_cells g) ->
  exists g1,
    make_move cell (Some mark) g = Return tt g1
    /\ make_move cell None g1 = Return tt g.
Proof.
  intros Hreach Hin. apply reachable_is_mark in Hreach.
  exists (after_move g cell mark). split.
  - now apply make_move_empty_cell.
  - now apply make_move_undo.
Qed.

Lemma make_move_then_undo_witness :
  exists g1,
    make_move 4 (Some "X") new_game = Return tt g1
    /\ make_move 4 None g1 = Return tt new_game.
Proof.
  apply (make_move_then_undo "master" new_game 4 "X").
  - apply reach_new.
  - vm_compute. tauto.
Defined.

(** ** The value function *)

(** C2, as the code has it: on a game that is over, [minimax] returns -1
    when "X" has won and 0 when nobody has won (and then no cell is empty);
    the game is left as it was. *)
Theorem minimax_terminal_value g depth player fuel :
  is_game_over g = true ->
  (get_winner g = Some "X" -> minimax (S fuel) depth player g = Return (-1) g)
  /\ (get_winner g = None ->
      available_cells g = [] /\ minimax (S fuel) depth player g = Return 0 g).
Proof.
  intros Hover. simpl minimax. rewrite Hover. split; intros Hw; rewrite Hw; simpl.
  - reflexivity.
  - split; [|reflexivity]. unfold is_game_over in Hover.
    destruct (available_cells g); [reflexivity|]. rewrite Hw in Hover. discriminate.
Qed.

Lemma minimax_terminal_value_witness :
  (get_winner x_row_won = Some "X" -> minimax 1 5 "O" x_row_won = Return (-1) x_row_won)
  /\ (get_winner x_row_won = None ->
      available_cells x_row_won = [] /\ minimax 1 5 "O" x_row_won = Return 0 x_row_won).
Proof. apply (minimax_terminal_value x_row_won 5 "O" 0). reflexivity. Defined.

(** C2 fails as stated: with three "X" in the top row the game is over,
    the winner is "X", and the value is -1, not +1. *)
Lemma minimax_x_win_is_not_plus_one :
  is_game_over x_row_won = true
  /\ get_winner x_row_won = Some "X"
  /\ minimax 5 4 "O" x_row_won = Return (-1) x_row_won
  /\ minimax 5 4 "O" x_row_won <> Return 1 x_row_won.
Proof. repeat split. discriminate. Qed.

(** C3: [get_winner] gives "X", "O" or [None], never the "Y" that the second
    terminal test of [minimax] asks for, so the branch that returns +1 is
    never taken; and for any game, depth and player, [minimax] returns, with
    value -1 or 0. *)
Theorem minimax_never_plus_one g depth player k :
  (get_winner g = None \/ get_winner g = Some "X" \/ get_winner g = Some "O")
  /\ winner_is (get_winner g) "Y" = false
  /\ exists v g',
       minimax (S (length (available_cells g)) + k) depth player g = Return v g'
       /\ (v = -1 \/ v = 0).
Proof.
  split; [apply get_winner_cases|]. split.
  - destruct (get_winner_cases g) as [-> | [-> | ->]]; reflexivity.
  - destruct (minimax_total (S (length (available_cells g))) g depth player)
      as (v & g' & Hrun & _ & Hv); [lia|].
    exists v, g'. split; [|exact Hv]. rewrite <- Hrun.
    apply refines_done; [apply minimax_more_fuel | rewrite Hrun; discriminate].
Qed.

(** C9: on the opening position with "O" to move and depth 9, [minimax]
    returns 0 and leaves the game as it was, with any fuel from 10 on. *)
Theorem minimax_opening_value k :
  minimax (10 + k) 9 "O" new_game = Return 0 new_game.
Proof.
  assert (H : minimax 10 9 "O" new_game = Return 0 new_game).
  { rewrite minimax_tree_value; [|now left | simpl; lia].
    rewrite (no_loss_sound 10 new_game "O"); [reflexivity|].
    vm_compute. reflexivity. }
  rewrite <- H. apply refines_done; [apply minimax_more_fuel | rewrite H; discriminate].
Qed.

(** ** The move of the AI *)

(** C4: from a reachable game that is not over, the query of the master
    player ends, by a value or by an exception, with the game object exactly
    as it was: board, player to move and the other fields. *)
Theorem master_query_restores_game difficulty g k :
  reachable difficulty g ->
  is_game_over g = false ->
  unchanged_by (play (length (available_cells g) + k) "master" g) g.
Proof.
  intros Hreach _. apply reachable_is_mark in Hreach.
  change (play (length (available_cells g) + k) "master" g)
    with (get_best_choice (length (available_cells g) + k)
            (Z.of_nat (length (available_cells g))) (current_player g) g).
  destruct (get_best_choice_scan (length (available_cells g) + k)
              (Z.of_nat (length (available_cells g))) (current_player g) g)
    as (choices & g' & -> & Hres & _); [lia|].
  rewrite (restores_eq g g' Hreach Hres). apply draw_between_unchanged.
Qed.

Lemma master_query_restores_game_witness :
  unchanged_by (play (length (available_cells x_0_6_8_o_2_4) + 0) "master" x_0_6_8_o_2_4)
               x_0_6_8_o_2_4.
Proof.
  apply (master_query_restores_game "easy" x_0_6_8_o_2_4 0).
  - apply (reach_human "easy" x_0_8_o_2_4 6); [|reflexivity..].
    apply (reach_ai "easy" x_0_8_o_4 0 [1; 2; 3; 4; 5; 6; 7] x_0_8_o_4 2);
      [|reflexivity | discriminate | reflexivity | simpl; tauto | reflexivity].
    apply (reach_human "easy" x_0_o_4 8); [|reflexivity..].
    apply (reach_ai "easy" x_on_0 0 [1; 2; 3; 4; 5; 6; 7; 8] x_on_0 4);
      [|reflexivity | discriminate | reflexivity | simpl; tauto | reflexivity].
    apply (reach_human "easy" new_game 0); [apply reach_new | reflexivity..].
  - reflexivity.
Defined.

(** C6, as the code has it: with no empty cell, [play] raises [ValueError]
    (the [min] of an empty list) whatever the difficulty, and leaves the
    game as it was; there is no other error result. *)
Theorem play_without_empty_cell fuel difficulty g :
  available_cells g = [] ->
  play fuel difficulty g = Raise ValueError g.
Proof.
  intros Hnone. unfold play.
  destruct (String.eqb (ai_difficulty difficulty) "easy").
  - unfold make_easy_move. now rewrite Hnone.
  - unfold make_master_move, get_best_choice. cbv zeta. now rewrite Hnone.
Qed.

Lemma play_without_empty_cell_witness :
  play 10 "master" full_draw = Raise ValueError full_draw.
Proof. apply (play_without_empty_cell 10 "master" full_draw). reflexivity. Defined.

(** C6 fails as stated: on a full board [play] does not return any result to
    its caller, it raises [ValueError], for the easy and the master player. *)
Lemma play_on_full_board_raises :
  available_cells full_draw = []
  /\ play 10 "easy" full_draw = Raise ValueError full_draw
  /\ play 10 "master" full_draw = Raise ValueError full_draw
  /\ ~ (exists r g', play 10 "master" full_draw = Return r g').
Proof. repeat split. intros (r & g' & H). discriminate H. Qed.

(** ** Positions met in play against the master player *)

Lemma master_reply_to_corner : play 8 "master" x_on_0 = Return [4] x_on_0.
Proof. vm_cast_no_check (@eq_refl (outcome (list Z)) (Return [4] x_on_0)). Qed.

Lemma master_choices_x_0_8_o_4 :
  play 6 "master" x_0_8_o_4 = Return [1; 2; 3; 4; 5; 6; 7] x_0_8_o_4.
Proof. vm_cast_no_check (@eq_refl (outcome (list Z)) (Return [1; 2; 3; 4; 5; 6; 7] x_0_8_o_4)). Qed.

Lemma reachable_master_x_0_8_o_4 : reachable "master" x_0_8_o_4.
Proof.
  apply (reach_human "master" x_0_o_4 8); [|reflexivity..].
  apply (reach_ai "master" x_on_0 8 [4] x_on_0 4);
    [|reflexivity | discriminate | apply master_reply_to_corner | simpl; tauto | reflexivity].
  apply (reach_human "master" new_game 0); [apply reach_new | reflexivity..].
Qed.

Lemma reachable_master_x_0_6_8_o_2_4 : reachable "master" x_0_6_8_o_2_4.
Proof.
  apply (reach_human "master" x_0_8_o_2_4 6); [|reflexivity..].
  apply (reach_ai "master" x_0_8_o_4 6 [1; 2; 3; 4; 5; 6; 7] x_0_8_o_4 2);
    [|reflexivity | discriminate | apply master_choices_x_0_8_o_4 | simpl; tauto | reflexivity].
  apply reachable_master_x_0_8_o_4.
Qed.

(** C7 at a failing input: after the opening move of "X" on cell 1 the easy
    player draws among 0..8, and so can return cell 1, which is occupied and
    is not one of the available cells. *)
Lemma easy_move_can_be_occupied :
  reachable "easy" x_on_1
  /\ is_game_over x_on_1 = false
  /\ available_cells x_on_1 = [0; 2; 3; 4; 5; 6; 7; 8]
  /\ play 0 "easy" x_on_1 = Return [0; 1; 2; 3; 4; 5; 6; 7; 8] x_on_1
  /\ In 1 [0; 1; 2; 3; 4; 5; 6; 7; 8]
  /\ ~ In 1 (available_cells x_on_1).
Proof.
  split; [|split; [|split; [|split; [|split]]]].
  - apply (reach_human "easy" new_game 1); [apply reach_new | reflexivity..].
  - reflexivity.
  - reflexivity.
  - vm_compute. reflexivity.
  - simpl; tauto.
  - vm_compute. intuition discriminate.
Qed.

(** C8 at a failing input: in this position, met in play against the master
    player, every move of "O" has value -1, no candidate is kept, and the
    query raises [ValueError] instead of drawing among the empty cells. *)
Lemma best_choice_without_candidate_raises :
  reachable "master" x_0_6_8_o_2_4
  /\ is_game_over x_0_6_8_o_2_4 = false
  /\ Forall (fun move =>
               try_move (minimax 4 3 "X") move "O" x_0_6_8_o_2_4
               = Return (-1) x_0_6_8_o_2_4)
            (available_cells x_0_6_8_o_2_4)
  /\ play 4 "master" x_0_6_8_o_2_4 = Raise ValueError x_0_6_8_o_2_4.
Proof.
  split; [apply reachable_master_x_0_6_8_o_2_4|]. split; [reflexivity|]. split.
  - change (available_cells x_0_6_8_o_2_4) with [1; 3; 5; 7].
    repeat (apply List.Forall_cons; [vm_compute; reflexivity|]). apply List.Forall_nil.
  - vm_compute. reflexivity.
Qed.

(** C10: in play against the master player there is a position that is not
    over, and a draw, for which the move returned is an occupied cell. *)
Theorem master_move_can_be_occupied :
  exists g fuel cells g' cell,
    reachable "master" g
    /\ is_game_over g = false
    /\ play fuel "master" g = Return cells g'
    /\ In cell cells
    /\ ~ In cell (available_cells g).
Proof.
  exists x_0_8_o_4, 6%nat, [1; 2; 3; 4; 5; 6; 7], x_0_8_o_4, 4.
  split; [apply reachable_master_x_0_8_o_4|]. split; [reflexivity|].
  split; [apply master_choices_x_0_8_o_4|]. split; [simpl; tauto|].
  vm_compute. intuition discriminate.
Qed.

(** * Further properties of the code *)

(** ** The cell queries *)

Section Queries.

Lemma in_avail_from_iff b : forall i m,
  In m (avail_from i b) <-> i <= m /\ b !! Z.to_nat (m - i) = Some None.
Proof.
  intros i m. split; [apply in_avail_from|]. revert i m.
  induction b as [|v b IH]; intros i m [Hle Hlk]; [discriminate|].
  unfold avail_from. simpl.
  destruct (Z.eq_dec m i) as [-> | Hne].
  - rewrite Z.sub_diag in Hlk. simpl in Hlk. injection Hlk as ->. simpl. now left.
  - assert (Hin : In m (avail_from (i + 1) b)).
    { apply IH. split; [lia|].
      replace (Z.to_nat (m - i)) with (S (Z.to_nat (m - (i + 1)))) in Hlk by lia.
      exact Hlk. }
    destruct v; simpl; [exact Hin | now right].
Qed.

Lemma avail_from_lower b : forall i, Forall (fun m => i <= m) (avail_from i b).
Proof.
  intros i. apply List.Forall_forall. intros m Hm. now apply in_avail_from in Hm.
Qed.

Lemma avail_from_sorted b : forall i, StronglySorted Z.lt (avail_from i b).
Proof.
  induction b as [|v b IH]; intros i; [constructor|].
  unfold avail_from. simpl. destruct v; simpl; [apply IH|].
  constructor; [apply IH|].
  eapply List.Forall_impl; [|apply (avail_from_lower b (i + 1))].
  simpl. intros; lia.
Qed.

Lemma in_available_cells_iff g m :
  In m (available_cells g) <-> 0 <= m /\ board g !! Z.to_nat m = Some None.
Proof.
  rewrite available_cells_avail_from, in_avail_from_iff. now rewrite Z.sub_0_r.
Qed.

(** X1: [available_cells] lists exactly the indices of the cells that are
    [None], each once, in increasing order. *)
Theorem available_cells_exact g :
  (forall m, In m (available_cells g) <->
             0 <= m /\ board g !! Z.to_nat m = Some None)
  /\ StronglySorted Z.lt (available_cells g).
Proof.
  split; [apply in_available_cells_iff|].
  rewrite available_cells_avail_from. apply avail_from_sorted.
Qed.

Lemma value_eq_true v player : value_eq v player = true <-> v = Some player.
Proof.
  destruct v as [s|]; simpl; [|split; discriminate].
  rewrite String.eqb_eq. split; congruence.
Qed.

Lemma in_own_from player b : forall i m,
  In m (map fst (List.filter (fun p => value_eq (snd p) player)
                             (PyList.enumerate_from i b)))
  <-> i <= m /\ b !! Z.to_nat (m - i) = Some (Some player).
Proof.
  induction b as [|v b IH]; intros i m; simpl.
  - split; [tauto | intros [_ H]; discriminate].
  - assert (Hshift : forall x : option cell_value,
              i + 1 <= m -> (b !! Z.to_nat (m - (i + 1)) = x
                             <-> (v :: b) !! Z.to_nat (m - i) = x)).
    { intros x Hle.
      replace (Z.to_nat (m - i)) with (S (Z.to_nat (m - (i + 1)))) by lia.
      reflexivity. }
    destruct (value_eq v player) eqn:Hv; simpl; rewrite IH.
    + apply value_eq_true in Hv. subst v. split.
      * intros [<- | [Hle Hlk]].
        -- split; [lia|]. now rewrite Z.sub_diag.
        -- split; [lia|]. now apply Hshift.
      * intros [Hle Hlk]. destruct (Z.eq_dec i m) as [?|Hne]; [now left|].
        right. split; [lia|]. apply Hshift; [lia | exact Hlk].
    + split.
      * intros [Hle Hlk]. split; [lia|]. now apply Hshift.
      * intros [Hle Hlk]. destruct (Z.eq_dec i m) as [<- | Hne].
        -- rewrite Z.sub_diag in Hlk. simpl in Hlk. injection Hlk as ->.
           simpl in Hv. rewrite String.eqb_refl in Hv. discriminate.
        -- split; [lia|]. apply Hshift; [lia | exact Hlk].
Qed.

Lemma in_get_own_squares g player m :
  In m (get_own_squares g player) <->
  0 <= m /\ board g !! Z.to_nat m = Some (Some player).
Proof.
  unfold get_own_squares, PyList.enumerate. rewrite in_own_from. now rewrite Z.sub_0_r.
Qed.

Lemma count_cells b : forall i,
  Forall cell_ok b ->
  (length (avail_from i b)
   + length (map fst (List.filter (fun p => value_eq (snd p) "X") (PyList.enumerate_from i b)))
   + length (map fst (List.filter (fun p => value_eq (snd p) "O") (PyList.enumerate_from i b)))
   = length b)%nat.
Proof.
  induction b as [|v b IH]; intros i Hok; [reflexivity|].
  inversion Hok as [|? ? Hv Hb]; subst. specialize (IH (i + 1) Hb).
  unfold avail_from in *. simpl.
  destruct Hv as [-> | [-> | ->]]; simpl; lia.
Qed.

(** X2: on a board whose cells are [None], "X" or "O", the empty cells, the
    squares of "X" and the squares of "O" together count every cell once. *)
Theorem cells_are_counted_once g :
  Forall cell_ok (board g) ->
  (length (available_cells g) + length (get_own_squares g "X")
   + length (get_own_squares g "O") = length (board g))%nat.
Proof. intros Hok. rewrite available_cells_avail_from. now apply count_cells. Qed.

Lemma cells_are_counted_once_witness :
  (length (available_cells x_0_8_o_4) + length (get_own_squares x_0_8_o_4 "X")
   + length (get_own_squares x_0_8_o_4 "O") = length (board x_0_8_o_4))%nat.
Proof.
  apply (cells_are_counted_once x_0_8_o_4).
  unfold x_0_8_o_4, board_of, cell_ok, X_, O_, e_. simpl.
  repeat (apply List.Forall_cons; [tauto|]). apply List.Forall_nil.
Defined.

End Queries.

(** ** The winner *)

Section Winner.

Lemma contains_true positions pos :
  PyList.contains positions pos = true <-> In pos positions.
Proof.
  unfold PyList.contains. rewrite existsb_exists. split.
  - intros (x & Hin & Heq). apply Z.eqb_eq in Heq. now subst.
  - intros Hin. exists pos. split; [exact Hin | apply Z.eqb_refl].
Qed.

Lemma combo_win_fold positions combo : forall win,
  fold_left (fun win pos => if negb (PyList.contains positions pos) then false else win)
            combo win = true
  <-> win = true /\ forall pos, In pos combo -> In pos positions.
Proof.
  induction combo as [|p combo IH]; intros win; simpl.
  - split; [intros ->; split; [reflexivity | tauto] | tauto].
  - rewrite IH. destruct (PyList.contains positions p) eqn:Hp; simpl.
    + apply contains_true in Hp. split.
      * intros [-> H]. split; [reflexivity|]. intros pos [<- | Hin]; auto.
      * intros [-> H]. split; [reflexivity|]. intros pos Hin. apply H. now right.
    + split; [intros [H _]; discriminate|].
      intros [_ H]. specialize (H p (or_introl eq_refl)).
      apply contains_true in H. congruence.
Qed.

Lemma some_combo_wins g player :
  existsb (combo_win (get_own_squares g player)) winning_combos = true
  <-> has_line g player.
Proof.
  rewrite existsb_exists. unfold has_line, holds_combo, combo_win.
  split; intros (combo & Hin & H); exists combo; (split; [exact Hin|]).
  - apply combo_win_fold in H as [_ H]. intros pos Hpos.
    now apply in_get_own_squares, H.
  - apply combo_win_fold. split; [reflexivity|]. intros pos Hpos.
    now apply in_get_own_squares, H.
Qed.

(** X3: [get_winner] answers "X" exactly when "X" owns the three cells of
    some winning combo, "O" exactly when "O" does and "X" does not, and
    [None] exactly when neither does. *)
Theorem get_winner_exact g :
  (get_winner g = Some "X" <-> has_line g "X")
  /\ (get_winner g = Some "O" <-> ~ has_line g "X" /\ has_line g "O")
  /\ (get_winner g = None <-> ~ has_line g "X" /\ ~ has_line g "O").
Proof.
  rewrite <- !some_combo_wins. unfold get_winner, List.find.
  destruct (existsb (combo_win (get_own_squares g "X")) winning_combos);
    destruct (existsb (combo_win (get_own_squares g "O")) winning_combos);
    repeat split; try congruence; try tauto;
    try (intros [H1 H2]; congruence);
    try (intros H; discriminate H).
Qed.

End Winner.

(** ** Moves *)

Section Moves.

(** X4: on a board of nine cells [validate_move] accepts exactly the cells
    that [available_cells] lists. *)
Theorem validate_move_accepts_available g cell :
  length (board g) = 9%nat ->
  (validate_move cell g = Return true g <-> In cell (available_cells g)).
Proof.
  intros Hlen. rewrite in_available_cells_iff.
  unfold validate_move.
  destruct (cell <? 0) eqn:Hlo; simpl.
  { apply Z.ltb_lt in Hlo. split; [discriminate | lia]. }
  apply Z.ltb_ge in Hlo.
  destruct (cell >? 8) eqn:Hhi; simpl.
  { apply Z.gtb_lt in Hhi. split; [discriminate|]. intros [_ Hlk].
    apply lookup_lt_Some in Hlk. lia. }
  rewrite Z.gtb_ltb in Hhi. apply Z.ltb_ge in Hhi.
  unfold PyList.getitem, PyList.index. rewrite Hlen.
  replace (0 <=? cell) with true by (symmetry; apply Z.leb_le; lia).
  replace (cell <? Z.of_nat 9) with true by (symmetry; apply Z.ltb_lt; lia).
  simpl.
  destruct (board g !! Z.to_nat cell) as [[s|]|] eqn:Hlk; simpl.
  - split; [discriminate | intros [_ H]; discriminate].
  - split; auto.
  - split; [discriminate | intros [_ H]; discriminate].
Qed.

Lemma validate_move_accepts_available_witness :
  validate_move 5 x_0_8_o_4 = Return true x_0_8_o_4 <-> In 5 (available_cells x_0_8_o_4).
Proof. apply (validate_move_accepts_available x_0_8_o_4 5). reflexivity. Defined.

(** X5: a move on an empty cell succeeds; afterwards that cell is a square
    of the mover and no longer available, every other cell is as before, and
    the turn has passed to the enemy of the player who had it. *)
Theorem make_move_takes_the_cell g m player :
  In m (available_cells g) ->
  exists g',
    make_move m (Some player) g = Return tt g'
    /\ (forall c, In c (available_cells g') <-> In c (available_cells g) /\ c <> m)
    /\ In m (get_own_squares g' player)
    /\ (forall q c, c <> m ->
                    (In c (get_own_squares g' q) <-> In c (get_own_squares g q)))
    /\ current_player g' = get_enemy (current_player g).
Proof.
  intros Hin. exists (after_move g m player).
  split; [now apply make_move_empty_cell|].
  apply in_available_cells in Hin as [Hm Hlk].
  assert (Hother : forall c, 0 <= c -> c <> m ->
            board (after_move g m player) !! Z.to_nat c = board g !! Z.to_nat c).
  { intros c Hc Hne. simpl. apply list_lookup_insert_ne. lia. }
  assert (Hsame : board (after_move g m player) !! Z.to_nat m = Some (Some player)).
  { simpl. apply list_lookup_insert_eq. now apply lookup_lt_Some in Hlk. }
  split.
  { intros c. rewrite !in_available_cells_iff. split.
    - intros [Hc Hlkc]. destruct (Z.eq_dec c m) as [-> | Hne]; [congruence|].
      rewrite Hother in Hlkc by assumption. auto.
    - intros [[Hc Hlkc] Hne]. split; [exact Hc|]. now rewrite Hother. }
  split; [apply in_get_own_squares; auto|].
  split; [|reflexivity].
  intros q c Hne. rewrite !in_get_own_squares.
  split; intros [Hc Hlkc]; (split; [exact Hc|]).
  - now rewrite <- Hother.
  - now rewrite Hother.
Qed.

Lemma make_move_takes_the_cell_witness :
  exists g',
    make_move 5 (Some "O") x_0_8_o_4 = Return tt g'
    /\ (forall c, In c (available_cells g') <-> In c (available_cells x_0_8_o_4) /\ c <> 5)
    /\ In 5 (get_own_squares g' "O")
    /\ (forall q c, c <> 5 ->
                    (In c (get_own_squares g' q) <-> In c (get_own_squares x_0_8_o_4 q)))
    /\ current_player g' = get_enemy (current_player x_0_8_o_4).
Proof. apply (make_move_takes_the_cell x_0_8_o_4 5 "O"). vm_compute. tauto. Defined.

(** X6: [make_move] takes the cell index as Python does: an index below
    [-len(board)] or from [len(board)] on raises [IndexError] and changes
    nothing, not even the player to move; any other index, negative ones
    included, writes the cell [cell mod len(board)] and passes the turn. *)
Theorem make_move_index g cell v :
  let n := Z.of_nat (length (board g)) in
  make_move cell v g =
  if (cell <? - n) || (n <=? cell) then Raise IndexError g
  else Return tt (mkGame (<[Z.to_nat (cell mod n):=v]> (board g)) (ai_moves_count g)
                         (status g) (get_enemy (current_player g))).
Proof.
  intros n. unfold make_move, PyList.setitem, PyList.index. fold n.
  destruct (Z.ltb_spec cell (- n)); destruct (Z.leb_spec n cell);
    destruct (Z.leb_spec 0 cell); destruct (Z.ltb_spec cell n);
    destruct (Z.leb_spec (- n) cell); destruct (Z.ltb_spec cell 0);
    simpl; try lia; try reflexivity.
  - rewrite Z.mod_small by lia. reflexivity.
  - replace (cell mod n) with (cell + n); [reflexivity|].
    apply (Z.mod_unique cell n (-1) (cell + n)); lia.
Qed.

(** X7: [get_enemy] always answers "X" or "O", never its argument, and
    applied twice it gives back exactly the players "X" and "O". *)
Theorem get_enemy_properties p :
  is_mark (get_enemy p)
  /\ get_enemy p <> p
  /\ (get_enemy (get_enemy p) = p <-> is_mark p).
Proof.
  split; [apply get_enemy_is_mark|]. split.
  - unfold get_enemy. destruct (String.eqb_spec p "X") as [-> | Hne]; congruence.
  - split.
    + intros <-. apply get_enemy_is_mark.
    + apply get_enemy_involutive.
Qed.

End Moves.

(** ** The search *)

Section SearchFacts.

Lemma for_each_ext {A} (body body' : Z -> A -> M A) :
  (forall x acc g, body x acc g = body' x acc g) ->
  forall l acc g, for_each l body acc g = for_each l body' acc g.
Proof.
  intros Hbody l. induction l as [|x l IH]; intros acc g; [reflexivity|].
  simpl. unfold bind. rewrite Hbody. destruct (body' x acc g); auto.
Qed.

Lemma try_move_ext (rec rec' : M Z) m player g :
  (forall g0, rec g0 = rec' g0) ->
  try_move rec m player g = try_move rec' m player g.
Proof.
  intros Hrec. unfold try_move, bind.
  destruct (make_move m (Some player) g); try reflexivity. now rewrite Hrec.
Qed.

Lemma minimax_depth fuel : forall depth depth' player g,
  minimax fuel depth player g = minimax fuel depth' player g.
Proof.
  induction fuel as [|fuel IH]; intros depth depth' player g; [reflexivity|].
  simpl. destruct (is_game_over g); [reflexivity|].
  destruct (String.eqb player "O"); apply for_each_ext; intros x acc g1;
    unfold bind;
    rewrite (try_move_ext _ (minimax fuel (depth' - 1) (get_enemy player)))
      by (intros; apply IH);
    reflexivity.
Qed.

(** X8: the depth that is passed down the search is never looked at:
    [minimax] and [get_best_choice] give the same outcome for any two
    depths. *)
Theorem search_ignores_depth fuel depth depth' player g :
  minimax fuel depth player g = minimax fuel depth' player g
  /\ get_best_choice fuel depth player g = get_best_choice fuel depth' player g.
Proof.
  split; [apply minimax_depth|].
  unfold get_best_choice. cbv zeta. unfold bind at 1. unfold bind at 2.
  rewrite (for_each_ext _
             (fun move choices =>
                move_value <- try_move (minimax fuel (depth' - 1) (get_enemy player))
                                       move player ;;
                ret (if move_value >? 0 then [move]
                     else if move_value =? 0 then choices ++ [move] else choices))).
  - reflexivity.
  - intros x acc g1. unfold bind.
    rewrite (try_move_ext _ (minimax fuel (depth' - 1) (get_enemy player)))
      by (intros; apply minimax_depth).
    reflexivity.
Qed.

(** X9: for a game whose player to move is "X" or "O", the search that
    plays and takes back moves on the shared game returns the value of the
    recursion over separate copies of the game ([tree_value]: maximum over
    the moves of "O", minimum over the moves of any other player, -1 for a
    won "X" and 0 otherwise at the end), and leaves the game as it was. *)
Theorem minimax_walks_the_tree fuel g depth player :
  is_mark (current_player g) ->
  (length (available_cells g) < fuel)%nat ->
  minimax fuel depth player g = Return (tree_value fuel g player) g.
Proof. apply minimax_tree_value. Qed.

Lemma minimax_walks_the_tree_witness :
  minimax 5 4 "O" x_0_6_8_o_2_4 = Return (tree_value 5 x_0_6_8_o_2_4 "O") x_0_6_8_o_2_4.
Proof.
  apply (minimax_walks_the_tree 5 x_0_6_8_o_2_4 4 "O").
  - right. reflexivity.
  - vm_compute. lia.
Defined.

End SearchFacts.

(** ** The draw *)

Section Draw.

Lemma fold_min_spec l : forall x,
  In (fold_left Z.min l x) (x :: l)
  /\ forall y, In y (x :: l) -> fold_left Z.min l x <= y.
Proof.
  induction l as [|a l IH]; intros x; simpl.
  - split; [now left | intros y [<- | []]; lia].
  - destruct (IH (Z.min x a)) as [Hin Hle]. split.
    + destruct Hin as [Heq | Hin]; [|auto].
      rewrite <- Heq. destruct (Z.min_spec x a) as [[_ ->] | [_ ->]]; auto.
    + intros y [<- | [<- | Hy]].
      * specialize (Hle (Z.min x a) (or_introl eq_refl)). lia.
      * specialize (Hle (Z.min x a) (or_introl eq_refl)). lia.
      * apply Hle. now right.
Qed.

Lemma fold_max_spec l : forall x,
  In (fold_left Z.max l x) (x :: l)
  /\ forall y, In y (x :: l) -> y <= fold_left Z.max l x.
Proof.
  induction l as [|a l IH]; intros x; simpl.
  - split; [now left | intros y [<- | []]; lia].
  - destruct (IH (Z.max x a)) as [Hin Hle]. split.
    + destruct Hin as [Heq | Hin]; [|auto].
      rewrite <- Heq. destruct (Z.max_spec x a) as [[_ ->] | [_ ->]]; auto.
    + intros y [<- | [<- | Hy]].
      * specialize (Hle (Z.max x a) (or_introl eq_refl)). lia.
      * specialize (Hle (Z.max x a) (or_introl eq_refl)). lia.
      * apply Hle. now right.
Qed.

Lemma in_randint lo hi c : In c (randint lo hi) <-> lo <= c <= hi.
Proof. unfold randint. rewrite <- list_elem_of_In, elem_of_seqZ. lia. Qed.

Lemma draw_between_between l g :
  l <> [] ->
  exists cells,
    draw_between l g = Return cells g /\ forall c, In c cells <-> between l c.
Proof.
  destruct l as [|x l]; [congruence|]. intros _.
  exists (randint (fold_left Z.min l x) (fold_left Z.max l x)).
  split; [reflexivity|]. intros c. rewrite in_randint.
  destruct (fold_min_spec l x) as [Hmin Hlo], (fold_max_spec l x) as [Hmax Hhi].
  split.
  - intros Hc. exists (fold_left Z.min l x), (fold_left Z.max l x). auto.
  - intros (a & b & Ha & Hb & Hc). specialize (Hlo a Ha). specialize (Hhi b Hb). lia.
Qed.

(** X10: with at least one empty cell the easy player always answers and
    leaves the game as it was; the cells it can answer are exactly those
    from the first to the last empty cell, occupied ones in between
    included. *)
Theorem easy_move_range fuel g :
  available_cells g <> [] ->
  exists cells,
    play fuel "easy" g = Return cells g
    /\ forall c, In c cells <-> between (available_cells g) c.
Proof. intros Hav. now apply draw_between_between. Qed.

Lemma easy_move_range_witness :
  exists cells,
    play 0 "easy" x_0_8_o_4 = Return cells x_0_8_o_4
    /\ forall c, In c cells <-> between (available_cells x_0_8_o_4) c.
Proof. apply (easy_move_range 0 x_0_8_o_4). discriminate. Defined.

Lemma in_candidates_fold (v : Z -> Z) l : forall acc c,
  (forall m, draw_value (v m)) ->
  (In c (fold_left (fun choices move =>
                      if v move >? 0 then [move]
                      else if v move =? 0 then choices ++ [move] else choices) l acc)
   <-> In c acc \/ (In c l /\ v c = 0)).
Proof.
  induction l as [|x l IH]; intros acc c Hv; simpl; [tauto|].
  rewrite IH by exact Hv.
  destruct (Hv x) as [Hx | Hx]; rewrite Hx; simpl.
  - split.
    + intros [H | [H1 H2]]; auto.
    + intros [H | [[<- | H1] H2]]; auto. lia.
  - rewrite in_app_iff. simpl. split.
    + intros [[H | [<- | []]] | [H1 H2]]; auto.
    + intros [H | [[<- | H1] H2]]; auto.
Qed.

(** X11: for the master player the candidates are exactly the empty cells
    whose move the search values at 0, the cell whose value is -1 being
    dropped; what is returned is the draw between the smallest and the
    largest candidate. *)
Theorem master_candidates fuel g depth player :
  is_mark (current_player g) ->
  (length (available_cells g) <= fuel)%nat ->
  exists choices,
    get_best_choice fuel depth player g = draw_between choices g
    /\ forall m, In m choices <->
                 In m (available_cells g)
                 /\ minimax fuel (depth - 1) (get_enemy player) (after_move g m player)
                    = Return 0 (after_move g m player).
Proof.
  intros Hmark Hfuel. exists (candidates fuel g player).
  split; [now apply get_best_choice_candidates|].
  intros m. unfold candidates.
  rewrite (in_candidates_fold
             (fun m => tree_value fuel (after_move g m player) (get_enemy player)))
    by (intros; apply tree_value_range).
  split.
  - intros [[] | [Hin Hval]]. split; [exact Hin|].
    rewrite minimax_tree_value, Hval; [reflexivity | apply after_move_is_mark |].
    pose proof (after_move_fewer g m player Hin). lia.
  - intros [Hin Hrun]. right. split; [exact Hin|].
    rewrite minimax_tree_value in Hrun; [congruence | apply after_move_is_mark |].
    pose proof (after_move_fewer g m player Hin). lia.
Qed.

Lemma master_candidates_witness :
  exists choices,
    get_best_choice 6 6 "O" x_0_8_o_4 = draw_between choices x_0_8_o_4
    /\ forall m, In m choices <->
                 In m (available_cells x_0_8_o_4)
                 /\ minimax 6 (6 - 1) (get_enemy "O") (after_move x_0_8_o_4 m "O")
                    = Return 0 (after_move x_0_8_o_4 m "O").
Proof.
  apply (master_candidates 6 x_0_8_o_4 6 "O").
  - right. reflexivity.
  - vm_compute. lia.
Defined.

(** X12: when the search values every move at -1, and also when there is no
    move, [get_best_choice] keeps no candidate and raises [ValueError]; the
    game is left as it was. *)
Theorem no_candidate_no_move fuel g depth player :
  is_mark (current_player g) ->
  (length (available_cells g) <= fuel)%nat ->
  (forall m, In m (available_cells g) ->
             minimax fuel (depth - 1) (get_enemy player) (after_move g m player)
             = Return (-1) (after_move g m player)) ->
  get_best_choice fuel depth player g = Raise ValueError g.
Proof.
  intros Hmark Hfuel Hlost. apply no_candidate_raises; try assumption.
  intros m Hin. specialize (Hlost m Hin).
  rewrite minimax_tree_value in Hlost; [|apply after_move_is_mark|].
  - injection Hlost as ->. lia.
  - pose proof (after_move_fewer g m player Hin). lia.
Qed.

Lemma no_candidate_no_move_witness :
  get_best_choice 4 4 "O" x_0_6_8_o_2_4 = Raise ValueError x_0_6_8_o_2_4.
Proof.
  apply (no_candidate_no_move 4 x_0_6_8_o_2_4 4 "O").
  - right. reflexivity.
  - vm_compute. lia.
  - change (available_cells x_0_6_8_o_2_4) with [1; 3; 5; 7].
    intros m [<- | [<- | [<- | [<- | []]]]]; vm_compute; reflexivity.
Defined.

End Draw.

(** ** The main loop *)

Section MainLoop.

Lemma between_incl l l' c :
  (forall x, In x l -> In x l') -> between l c -> between l' c.
Proof. intros Hsub (a & b & Ha & Hb & Hc). exists a, b. auto. Qed.

(** What [play] can return: the game as it was, and a cell between two
    empty cells. *)
Lemma play_returns fuel difficulty g cells g1 :
  is_mark (current_player g) ->
  play fuel difficulty g = Return cells g1 ->
  g1 = g /\ forall c, In c cells -> between (available_cells g) c.
Proof.
  intros Hmark. unfold play.
  destruct (String.eqb (ai_difficulty difficulty) "easy").
  - unfold make_easy_move. destruct (available_cells g) as [|x l] eqn:Hav.
    + discriminate.
    + destruct (draw_between_between (x :: l) g) as (cells' & -> & Hcells);
        [discriminate|].
      intros [= <- <-]. split; [reflexivity|]. intros c. apply Hcells.
  - unfold make_master_move. cbv zeta. intros Hrun.
    pose proof (get_best_choice_more_fuel fuel (length (available_cells g))
                  (Z.of_nat (length (available_cells g))) (current_player g) g) as Hmore.
    apply refines_done in Hmore; [|rewrite Hrun; discriminate].
    rewrite Hrun in Hmore.
    destruct (get_best_choice_scan (fuel + length (available_cells g))
                (Z.of_nat (length (available_cells g))) (current_player g) g)
      as (choices & g' & Hscan & Hres & Hsub); [lia|].
    rewrite Hscan, (restores_eq g g' Hmark Hres) in Hmore.
    destruct choices as [|x l]; [discriminate|].
    destruct (draw_between_between (x :: l) g) as (cells' & Hdraw & Hcells);
      [discriminate|].
    rewrite Hdraw in Hmore. injection Hmore as <- <-. split; [reflexivity|].
    intros c Hc. apply (between_incl (x :: l)); [exact Hsub | now apply Hcells].
Qed.

Lemma make_move_keeps_invariant g cell g' :
  game_invariant g ->
  make_move cell (Some (current_player g)) g = Return tt g' ->
  game_invariant g'.
Proof.
  intros (Hlen & Hcells & Hmark & Hstatus & Hcount). unfold make_move, PyList.setitem.
  destruct (PyList.index (board g) cell) as [k|]; [|discriminate].
  intros [= <-]. unfold game_invariant. simpl.
  rewrite length_insert. repeat split; auto.
  - apply Forall_insert; [exact Hcells|].
    unfold cell_ok. destruct Hmark as [-> | ->]; auto.
  - apply get_enemy_is_mark.
Qed.

Lemma reachable_invariant difficulty g :
  reachable difficulty g -> game_invariant g.
Proof.
  induction 1 as [|g cell g' _ IH _ _ _ Hmove|g fuel cells g1 cell g' _ IH _ _ Hplay _ Hmove].
  - unfold game_invariant, new_game. simpl. repeat split; auto.
    + repeat (apply List.Forall_cons; [now left|]). apply List.Forall_nil.
    + now left.
  - eapply make_move_keeps_invariant; eassumption.
  - destruct IH as (Hlen & Hcells & Hmark & Hrest).
    destruct (play_returns _ _ _ _ _ Hmark Hplay) as [-> _].
    eapply make_move_keeps_invariant; [|eassumption].
    unfold game_invariant. auto.
Qed.

(** X13: whatever is played, the game object of the main loop keeps a board
    of nine cells that are [None], "X" or "O" and a player to move that is
    "X" or "O"; its [status] stays "Running" and its [ai_moves_count] stays
    0, also once the game is over. *)
Theorem main_loop_invariant difficulty g :
  reachable difficulty g ->
  length (board g) = 9%nat
  /\ Forall cell_ok (board g)
  /\ is_mark (current_player g)
  /\ status g = "Running"
  /\ ai_moves_count g = 0.
Proof. apply reachable_invariant. Qed.

Lemma main_loop_invariant_witness :
  length (board x_on_1) = 9%nat
  /\ Forall cell_ok (board x_on_1)
  /\ is_mark (current_player x_on_1)
  /\ status x_on_1 = "Running"
  /\ ai_moves_count x_on_1 = 0.
Proof.
  apply (main_loop_invariant "easy" x_on_1).
  apply (reach_human "easy" new_game 1); [apply reach_new | reflexivity..].
Defined.

(** X14: in the main loop a cell that [play] returns is always an index
    from 0 to 8, so the [make_move] that follows never raises [IndexError]
    (the cell may be occupied); [play] itself leaves the game as it was. *)
Theorem ai_move_is_on_the_board difficulty g fuel cells g1 cell :
  reachable difficulty g ->
  play fuel difficulty g = Return cells g1 ->
  In cell cells ->
  g1 = g
  /\ 0 <= cell <= 8
  /\ exists g', make_move cell (Some (current_player g1)) g1 = Return tt g'.
Proof.
  intros Hreach Hplay Hin.
  destruct (reachable_invariant _ _ Hreach) as (Hlen & _ & Hmark & _).
  destruct (play_returns _ _ _ _ _ Hmark Hplay) as [-> Hcells].
  destruct (Hcells cell Hin) as (a & b & Ha & Hb & Hab).
  apply in_available_cells in Ha as [Ha _].
  apply in_available_cells in Hb as [Hb0 Hb]. apply lookup_lt_Some in Hb.
  assert (Hrange : 0 <= cell <= 8) by lia.
  split; [reflexivity|]. split; [exact Hrange|].
  destruct (lookup_lt_is_Some_2 (board g) (Z.to_nat cell)) as [v Hv]; [lia|].
  unfold make_move, PyList.setitem.
  rewrite (index_in_range _ cell v) by (lia || exact Hv). eauto.
Qed.

Lemma ai_move_is_on_the_board_witness :
  x_on_1 = x_on_1
  /\ 0 <= 1 <= 8
  /\ exists g', make_move 1 (Some (current_player x_on_1)) x_on_1 = Return tt g'.
Proof.
  apply (ai_move_is_on_the_board "easy" x_on_1 0 [0; 1; 2; 3; 4; 5; 6; 7; 8] x_on_1 1).
  - apply (reach_human "easy" new_game 1); [apply reach_new | reflexivity..].
  - vm_compute. reflexivity.
  - simpl. tauto.
Defined.

End MainLoop.

(** ** Printing *)

Section Printing.

Lemma slice_row {A} (b : list A) (k : nat) :
  (3 * k <= length b)%nat ->
  PyList.slice b (0 + Z.of_nat k * 3) (0 + Z.of_nat k * 3 + 3) = take 3 (drop (3 * k) b).
Proof.
  intros Hk. unfold PyList.slice, PyList.slice_bound.
  set (n := Z.of_nat (length b)).
  replace (0 + Z.of_nat k * 3 <? 0) with false by (symmetry; apply Z.ltb_ge; lia).
  replace (0 + Z.of_nat k * 3 + 3 <? 0) with false by (symmetry; apply Z.ltb_ge; lia).
  replace (Z.to_nat (Z.min (0 + Z.of_nat k * 3) n)) with (3 * k)%nat by lia.
  destruct (Z.le_gt_cases (0 + Z.of_nat k * 3 + 3) n) as [Hfull | Hshort].
  - f_equal. lia.
  - rewrite !take_ge; [reflexivity | |]; rewrite length_drop; lia.
Qed.

Lemma concat_rows {A} : forall (rows : nat) (b : list A),
  (length b <= 3 * rows)%nat ->
  concat (map (fun k => take 3 (drop (3 * k) b)) (seq 0 rows)) = b.
Proof.
  induction rows as [|rows IH]; intros b Hlen.
  - destruct b; [reflexivity | simpl in Hlen; lia].
  - change (seq 0 (S rows)) with (0%nat :: seq 1 rows).
    rewrite <- seq_shift, map_cons, List.map_map. simpl concat.
    rewrite (map_ext _ (fun k => take 3 (drop (3 * k) (drop 3 b)))).
    + rewrite IH by (rewrite length_drop; lia). apply (take_drop 3 b).
    + intros k. rewrite drop_drop. do 2 f_equal. lia.
Qed.

(** X15: [print_board] prints every cell once and in order: the rows it
    prints, put end to end, are the board; and on a board of nine cells they
    are three rows of three cells. *)
Theorem print_board_rows g :
  concat (print_board g) = board g
  /\ (length (board g) = 9%nat ->
      print_board g =
      [take 3 (board g); take 3 (drop 3 (board g)); take 3 (drop 6 (board g))]).
Proof.
  assert (Hrows : forall rows, (3 * rows < length (board g) + 3)%nat ->
            map (fun i => PyList.slice (board g) i (i + 3))
                (map (fun k => 0 + Z.of_nat k * 3) (seq 0 rows))
            = map (fun k => take 3 (drop (3 * k) (board g))) (seq 0 rows)).
  { intros rows Hrows. rewrite List.map_map. apply map_ext_in.
    intros k Hk. apply in_seq in Hk. apply slice_row. lia. }
  unfold print_board, PyList.range. split.
  - set (n := Z.of_nat (length (board g))).
    pose proof (Z.div_mod (n - 0 + 3 - 1) 3 ltac:(lia)) as Hdiv.
    pose proof (Z.mod_pos_bound (n - 0 + 3 - 1) 3 ltac:(lia)) as Hmod.
    rewrite Hrows by lia. apply concat_rows. lia.
  - intros Hlen. rewrite Hlen.
    change (Z.to_nat ((Z.of_nat 9 - 0 + 3 - 1) / 3)) with 3%nat.
    rewrite Hrows by lia. reflexivity.
Qed.

End Printing.

Lemma print_board_rows_witness :
  concat (print_board x_0_8_o_4) = board x_0_8_o_4
  /\ print_board x_0_8_o_4 = [[X_; e_; e_]; [e_; O_; e_]; [e_; e_; X_]].
Proof.
  destruct (print_board_rows x_0_8_o_4) as [Hall Hrows].
  split; [exact Hall | apply Hrows; reflexivity].
Defined.

(** ** A game won by "O" *)

(** X16: on a game that is over and that "O" has won, [minimax] returns 0,
    the value it also gives to a game nobody has won: the search does not
    tell a win of "O" from a draw. *)
Theorem minimax_o_win_is_zero g depth player fuel :
  is_game_over g = true ->
  get_winner g = Some "O" ->
  minimax (S fuel) depth player g = Return 0 g.
Proof. intros Hover Hwin. simpl. rewrite Hover, Hwin. reflexivity. Qed.

Lemma minimax_o_win_is_zero_witness :
  minimax 1 5 "X" (board_of [O_; O_; O_; X_; X_; e_; e_; e_; e_] "X")
  = Return 0 (board_of [O_; O_; O_; X_; X_; e_; e_; e_; e_] "X").
Proof.
  apply (minimax_o_win_is_zero (board_of [O_; O_; O_; X_; X_; e_; e_; e_; e_] "X") 5 "X" 0);
    reflexivity.
Defined.
